(** * A shallow embedding of the rslisp evaluator (src/src/evaluator.rs)

    The data model follows src/src/parser.rs and src/src/location.rs; the
    environment and the evaluation functions follow src/src/evaluator.rs.

    Conventions of the embedding:
    - [i128] payloads are [Z]; an [f64] payload is its 64-bit IEEE bit pattern,
      also a [Z] (no claim here inspects float arithmetic).
    - A [HashMap<String, Object>] is a [gmap string Object].
    - The evaluator returns [Result<Object, String>]; the [String] messages are
      modelled by [EvalError], one constructor per [format!] shape of the source.
      A Rust panic ([unreachable!], [unimplemented!], [todo!]) is an outcome of
      its own, [RPanic], recording which macro fired. *)

From Stdlib Require Import String ZArith NArith List Bool.
From stdpp Require Import base gmap strings.
Import ListNotations.
Open Scope string_scope.
Set Warnings "-register-all".

(** ** location.rs *)

Record Location := mkLocation {
  filename : option string;
  rol : nat;
  col : nat
}.

(** [Location::new] *)
Definition Location_new (filename : option string) (rol col : nat) : Location :=
  mkLocation filename rol col.

(** ** parser.rs: the AST *)

(** [ParamKind] is imported by evaluator.rs; its only variant used there is
    [ParamKind::Variadic].  A parameter also carries an optional location, as
    [create_builtin_funcdef] builds it. *)
Inductive ParamKind :=
| Variadic
| Positional (name : string).

Record Param := mkParam {
  kind : ParamKind;
  param_loc : option Location
}.

(** [Object], with [FunctionDefinition { params, body }] and
    [FunctionBody(Vec<Object>)] as evaluator.rs uses them (a vector of
    parameters and a body vector). *)
Inductive Object :=
| Void (loc : option Location)
| Integer (value : Z) (loc : option Location)
| Float (value : Z) (loc : option Location)
| Bool (value : bool) (loc : option Location)
| Str (value : string) (loc : option Location)
| Symbol (value : string) (loc : option Location)
| Lambda (value : FunctionDefinition) (loc : option Location)
| List (value : list Object) (loc : option Location)
with FunctionDefinition :=
| mkFunctionDefinition (params : list Param) (body : FunctionBody)
with FunctionBody :=
| mkFunctionBody (objs : list Object).

(** [Object::loc]: the location stored on the object itself. *)
Definition Object_loc (o : Object) : option Location :=
  match o with
  | Void loc => loc
  | Integer _ loc => loc
  | Float _ loc => loc
  | Bool _ loc => loc
  | Str _ loc => loc
  | Symbol _ loc => loc
  | Lambda _ loc => loc
  | List _ loc => loc
  end.

(** ** evaluator.rs: the environment *)

(** [struct Environment { parent: Option<Rc<RefCell<Environment>>>, vars }].
    Only [set] mutates an environment, and [eval] only mutates the environment
    it is given, so the parent chain is read-only during an evaluation and is
    held here by value. *)
Inductive Environment := mkEnvironment {
  parent : option Environment;
  vars : gmap string Object
}.

(** [Environment::create_builtin_funcdef]: the sentinel location sits on the
    single parameter; the [Lambda] itself has [loc: None]. *)
Definition create_builtin_funcdef : Object :=
  Lambda
    (mkFunctionDefinition
       [mkParam Variadic (Some (Location_new (Some "__builtin__") 0 0))]
       (mkFunctionBody []))
    None.

(** [Environment::is_builtin]: [object.loc()] mapped to
    [filename == "__builtin__"], [false] when there is no location. *)
Definition is_builtin (object : Object) : bool :=
  match Object_loc object with
  | Some l =>
      match filename l with
      | Some s => String.eqb s "__builtin__"
      | None => false
      end
  | None => false
  end.

(** The eleven names bound by [Environment::new]. *)
Definition builtin_names : list string :=
  ["+"; "-"; "*"; "/"; "%"; ">"; "<"; "="; ">="; "<="; "/="].

(** [Environment::new]: [HashMap::from_iter] over the eleven pairs, whatever
    the parent. *)
Definition Environment_new (parent : option Environment) : Environment :=
  mkEnvironment parent
    (list_to_map (map (fun n => (n, create_builtin_funcdef)) builtin_names)).

(** [Environment::get]: the local table first, then the parent. *)
Fixpoint Environment_get (env : Environment) (name : string) : option Object :=
  match env with
  | mkEnvironment p vs =>
      match vs !! name with
      | Some value => Some value
      | None =>
          match p with
          | Some e => Environment_get e name
          | None => None
          end
      end
  end.

(** [Environment::set]: insert into the local table only. *)
Definition Environment_set (env : Environment) (name : string) (obj : Object)
  : Environment :=
  mkEnvironment (parent env) (<[name := obj]> (vars env)).

(** ** evaluator.rs: evaluation *)

(** The error messages of the evaluator, by the [format!] that builds them. *)
Inductive EvalError :=
| ErrEmpty                                 (** [""] (eval_define, no operand) *)
| ErrExpectSymbol (found : Object)         (** ["Expect Symbol/identifier but {} found at {:?}"] *)
| ErrExpectBinding (at_ : option Location) (** ["Expect binding an Object to a variable in {:?}"] *)
| ErrSymbolNotFound (s : string)           (** ["Symbol not found: {:?}"] *)
| ErrNoFollowUp.                           (** ["follow-up action not found for the if-expression"] *)

(** Which panicking macro fired. *)
Inductive Panic := Unreachable | Unimplemented | Todo.

(** What one call of an evaluation function does: [Ok], [Err], or a panic.
    [RNoResult] stands for [eval_function_definition], whose body binds
    [params] and [body] and ends there, with no result expression: the source
    gives a lambda form no value. *)
Inductive Outcome :=
| ROk (o : Object)
| RErr (e : EvalError)
| RPanic (p : Panic)
| RNoResult.

(** An evaluation step: the outcome with the environment [env] points to
    after the call ([env.borrow_mut().set] is the only write). *)
Abbreviation Eval := (Outcome * Environment)%type.

Section Evaluator.

(** The recursive [eval_obj], passed to the special forms. *)
Variable eval_obj : Object -> Environment -> Eval.

(** [eval_symbol] *)
Definition eval_symbol (s : string) (env : Environment) : Eval :=
  match Environment_get env s with
  | Some v => (ROk v, env)
  | None => (RErr (ErrSymbolNotFound s), env)
  end.

(** [eval_define] on the operands [list] ([&list[1..]] of the form). *)
Definition eval_define (list : list Object) (env : Environment) : Eval :=
  match list with
  | [] => (RErr ErrEmpty, env)
  | object :: rest =>
      match object with
      | Symbol name _ =>
          match rest with
          | [] => (RErr (ErrExpectBinding (Object_loc object)), env)
          | obj :: _ =>
              match eval_obj obj env with
              | (ROk val, env1) => (ROk (Void None), Environment_set env1 name val)
              | r => r
              end
          end
      | _ => (RErr (ErrExpectSymbol object), env)
      end
  end.

(** [eval_if]: the condition is [list.first()] matched against a literal
    [Object::Bool] ([unimplemented!()] on anything else); [Some(true)] picks
    [list.get(1)], anything else ([None] or [Some(false)]) [list.get(2)]; a
    missing pick is an error. *)
Definition eval_if (list : list Object) (env : Environment) : Eval :=
  let no_follow_up := (RErr ErrNoFollowUp, env) in
  match list with
  | [] =>
      no_follow_up
  | Bool true _ :: rest =>
      match rest with
      | t :: _ => eval_obj t env
      | [] => no_follow_up
      end
  | Bool false _ :: rest =>
      match rest with
      | _ :: e :: _ => eval_obj e env
      | _ => no_follow_up
      end
  | _ :: _ => (RPanic Unimplemented, env)
  end.

(** [eval_function_definition]: no result expression (see [RNoResult]). *)
Definition eval_function_definition (list : list Object) (env : Environment) : Eval :=
  (RNoResult, env).

(** [eval_function_call]: [todo!()]. *)
Definition eval_function_call (list : list Object) (env : Environment) : Eval :=
  (RPanic Todo, env).

(** [eval_builtin_func]: [todo!()]. *)
Definition eval_builtin_func (list : list Object) (env : Environment) : Eval :=
  (RPanic Todo, env).

(** [eval_list]: dispatch on the head; a non-symbol head is [unreachable!()].
    Every branch passes the tail [&list[1..]]. *)
Definition eval_list (list : list Object) (env : Environment) : Eval :=
  match list with
  | Symbol value _ :: rest =>
      if String.eqb value "define" then eval_define rest env
      else if String.eqb value "if" then eval_if rest env
      else if String.eqb value "lambda" then eval_function_definition rest env
      else eval_function_call rest env
  | [] => (ROk (Void None), env)
  | _ :: _ => (RPanic Unreachable, env)
  end.

End Evaluator.

(** [eval_obj]: atoms evaluate to a clone of themselves. *)
Fixpoint eval_obj (obj : Object) (env : Environment) {struct obj} : Eval :=
  match obj with
  | Void _ | Lambda _ _ | Bool _ _ | Integer _ _ | Float _ _ | Str _ _ =>
      (ROk obj, env)
  | Symbol s _ => eval_symbol s env
  | List value _ => eval_list eval_obj value env
  end.

(** [eval]: the entry point. *)
Definition eval (object : Object) (env : Environment) : Eval :=
  eval_obj object env.

(** ** Concrete forms *)

Definition sym (s : string) : Object := Symbol s None.
Definition int (z : Z) : Object := Integer z None.
Definition form (xs : list Object) : Object := List xs None.

(** The root environment a host would build: [Environment::new(None)]. *)
Definition root : Environment := Environment_new None.

Example if_true_literal :
  eval (form [sym "if"; Bool true None; int 1; int 2]) root = (ROk (int 1), root).
Proof. reflexivity. Qed.

Example if_false_literal :
  eval (form [sym "if"; Bool false None; int 1; int 2]) root = (ROk (int 2), root).
Proof. reflexivity. Qed.

Example define_then_lookup :
  let '(r, env1) := eval (form [sym "define"; sym "x"; int 10]) root in
  r = ROk (Void None) /\ fst (eval (sym "x") env1) = ROk (int 10).
Proof. vm_compute. split; reflexivity. Qed.

Example plus_found_in_child :
  Environment_get (Environment_new (Some root)) "+" = Some create_builtin_funcdef.
Proof. vm_compute. reflexivity. Qed.

(** ** Helper lemmas *)

(** Builtin closures are the only values of the table [Environment::new]
    builds. *)
Lemma Environment_new_vars_lookup (p : option Environment) (k : string) (v : Object) :
  vars (Environment_new p) !! k = Some v -> v = create_builtin_funcdef.
Proof.
  unfold Environment_new. cbn [vars]. intros H.
  apply elem_of_list_to_map_2 in H.
  apply list_elem_of_fmap in H as [n [Hn _]].
  by inversion Hn.
Qed.

(** ** C8: self-evaluation of atoms *)

(** C8: a [Void], [Integer], [Float], [Bool], [Str] or [Lambda] (closure)
    object evaluates, in any environment, to itself, and leaves the
    environment as it was. *)
Theorem eval_atom_self (o : Object) (env : Environment) :
  match o with
  | Symbol _ _ | List _ _ => True
  | _ => eval o env = (ROk o, env)
  end.
Proof. destruct o; reflexivity. Qed.

(** ** C9: the builtin closures are not recognised by [is_builtin] *)

(** C9: [is_builtin] returns [false] on [create_builtin_funcdef ()], hence on
    every value the table of [Environment::new] binds: the sentinel location
    is on the parameter, the [Lambda]'s own [loc] is [None]. *)
Theorem builtin_funcdef_not_is_builtin :
  is_builtin create_builtin_funcdef = false /\
  forall (p : option Environment) (k : string) (v : Object),
    vars (Environment_new p) !! k = Some v -> is_builtin v = false.
Proof.
  split; [reflexivity|].
  intros p k v H. apply Environment_new_vars_lookup in H. by subst.
Qed.

(** ** C3: how [is_builtin] decides *)

(** The sentinel location, as [create_builtin_funcdef] writes it. *)
Definition builtin_loc : Location := Location_new (Some "__builtin__") 0 0.

(** C3 (counterexample): the same closure is or is not a builtin according to
    its location alone: [create_builtin_funcdef ()] with the sentinel moved
    onto its own [loc] is a builtin, the unchanged one is not; and an
    [Integer] carrying the sentinel location is a builtin too. *)
Lemma is_builtin_reads_location :
  is_builtin create_builtin_funcdef = false /\
  is_builtin
    (match create_builtin_funcdef with
     | Lambda fd _ => Lambda fd (Some builtin_loc)
     | o => o
     end) = true /\
  is_builtin (Integer 5 (Some builtin_loc)) = true.
Proof. repeat split; reflexivity. Qed.

(** C3 (amended): [is_builtin v] is decided by the location of [v] alone:
    it holds exactly when [v.loc()] is present with filename
    ["__builtin__"], so two objects with the same location get the same
    answer whatever their kind. *)
Theorem is_builtin_iff_sentinel_loc :
  (forall o : Object,
     is_builtin o = true <->
     exists l, Object_loc o = Some l /\ filename l = Some "__builtin__") /\
  (forall o1 o2 : Object,
     Object_loc o1 = Object_loc o2 -> is_builtin o1 = is_builtin o2).
Proof.
  split.
  - intros o. unfold is_builtin. split.
    + destruct (Object_loc o) as [l|]; [|discriminate].
      destruct (filename l) as [s|] eqn:Hf; [|discriminate].
      intros Hs. apply String.eqb_eq in Hs. subst. eauto.
    + intros (l & -> & ->). reflexivity.
  - intros o1 o2 H. unfold is_builtin. by rewrite H.
Qed.

(** ** C4: what [Environment::new] binds *)

(** C4 (counterexample): an environment built with a parent is not empty:
    it binds ["+"] itself. *)
Lemma Environment_new_child_not_empty :
  vars (Environment_new (Some root)) !! "+" = Some create_builtin_funcdef /\
  vars (Environment_new (Some root)) <> ∅.
Proof.
  split; [reflexivity|].
  intros H. assert (Hp : vars (Environment_new (Some root)) !! "+" = None)
    by (rewrite H; apply lookup_empty).
  discriminate Hp.
Qed.

(** C4 (amended): whatever its parent, [Environment::new(p)] keeps [p] as
    parent and binds exactly the eleven operator names, each to
    [create_builtin_funcdef ()]; so every environment, root or not, resolves
    ["+"] in its own table. *)
Theorem Environment_new_binds_builtins (p : option Environment) :
  parent (Environment_new p) = p /\
  (forall k : string,
     vars (Environment_new p) !! k =
     if decide (k ∈ builtin_names) then Some create_builtin_funcdef else None) /\
  Environment_get (Environment_new p) "+" = Some create_builtin_funcdef.
Proof.
  split; [reflexivity|]. split; [|reflexivity].
  intros k. destruct (decide (k ∈ builtin_names)) as [Hin|Hout].
  - unfold builtin_names in Hin.
    repeat (apply elem_of_cons in Hin; destruct Hin as [->|Hin]; [reflexivity|]).
    by apply elem_of_nil in Hin.
  - unfold Environment_new. cbn [vars].
    apply not_elem_of_list_to_map_1. exact Hout.
Qed.

(** ** C1: [if] *)

(** C1 (counterexample): [(if false 1)] fails with the follow-up error
    instead of returning [Void]. *)
Lemma if_false_without_else_fails :
  eval (form [sym "if"; Bool false None; int 1]) root = (RErr ErrNoFollowUp, root).
Proof. reflexivity. Qed.

(** C1 (amended): with a literal [Bool] condition, [(if true t ...)] is the
    evaluation of [t] and [(if false t e ...)] the evaluation of [e]; a
    missing operand in the chosen position ([(if false t)], [(if true)],
    [(if false)]) fails with ["follow-up action not found for the
    if-expression"]. *)
Theorem eval_if_literal_condition (env : Environment) (il bl l : option Location) :
  (forall (t : Object) (rest : list Object),
     eval (List (Symbol "if" il :: Bool true bl :: t :: rest) l) env = eval t env) /\
  (forall (t e : Object) (rest : list Object),
     eval (List (Symbol "if" il :: Bool false bl :: t :: e :: rest) l) env = eval e env) /\
  (forall t : Object,
     eval (List [Symbol "if" il; Bool false bl; t] l) env = (RErr ErrNoFollowUp, env)) /\
  (forall b : bool,
     eval (List [Symbol "if" il; Bool b bl] l) env = (RErr ErrNoFollowUp, env)).
Proof. repeat split; [..|intros []]; reflexivity. Qed.

(** ** C5: applications *)

(** C5 (counterexample): with [x] bound to the integer [10], [(x 1)] does
    not fail as not callable: it panics in the [todo!()] of
    [eval_function_call]; so does [(f 1)] with [f] unbound. *)
Lemma application_panics :
  fst (eval (form [sym "x"; int 1]) (Environment_set root "x" (int 10))) = RPanic Todo /\
  fst (eval (form [sym "f"; int 1]) root) = RPanic Todo.
Proof. split; reflexivity. Qed.

(** C5 (amended): a list whose head is a symbol other than [define], [if]
    and [lambda] is handed, without its head, to [eval_function_call],
    which panics at [todo!()]: the head is not evaluated, no error is
    returned and the environment is unchanged. *)
Theorem eval_application_panics (env : Environment) (s : string)
    (sl : option Location) (args : list Object) (l : option Location)
    (Hs : s <> "define" /\ s <> "if" /\ s <> "lambda") :
  eval (List (Symbol s sl :: args) l) env = (RPanic Todo, env).
Proof.
  destruct Hs as (Hd & Hi & Hl).
  unfold eval. simpl. unfold eval_list.
  destruct (String.eqb s "define") eqn:Ed; [apply String.eqb_eq in Ed; contradiction|].
  destruct (String.eqb s "if") eqn:Ei; [apply String.eqb_eq in Ei; contradiction|].
  destruct (String.eqb s "lambda") eqn:El; [apply String.eqb_eq in El; contradiction|].
  reflexivity.
Qed.

Lemma eval_application_panics_witness :
  ("f" <> "define" /\ "f" <> "if" /\ "f" <> "lambda") /\
  eval (form [sym "f"; int 1]) root = (RPanic Todo, root).
Proof.
  assert (H : "f" <> "define" /\ "f" <> "if" /\ "f" <> "lambda")
    by (repeat split; discriminate).
  split; [exact H|].
  exact (eval_application_panics root "f" None [int 1] None H).
Defined.

(** ** C6: division and modulo *)

(** C6 (counterexample): [(/ 1 0)] panics in the root environment. *)
Lemma div_by_zero_panics :
  eval (form [sym "/"; int 1; int 0]) root = (RPanic Todo, root).
Proof. reflexivity. Qed.

(** C6 (amended): every application of [/] or [%], whatever its operands
    (a zero divisor among them), panics in the [todo!()] of
    [eval_function_call] and leaves the environment unchanged; no
    division-by-zero error is produced. *)
Theorem div_mod_application_panics (env : Environment) (sl l : option Location)
    (args : list Object) :
  eval (List (Symbol "/" sl :: args) l) env = (RPanic Todo, env) /\
  eval (List (Symbol "%" sl :: args) l) env = (RPanic Todo, env).
Proof. split; reflexivity. Qed.

(** ** C7: [define] *)

(** C7 (counterexample): [(define)] fails with the empty message of
    [eval_define]'s first guard, neither the expected-symbol error nor the
    missing-binding error. *)
Lemma define_no_operand :
  eval (form [sym "define"]) root = (RErr ErrEmpty, root) /\
  (forall o, ErrEmpty <> ErrExpectSymbol o) /\
  (forall l, ErrEmpty <> ErrExpectBinding l).
Proof. split; [reflexivity | split; discriminate]. Qed.

(** C7 (amended): in a [define] form evaluated in [env]: with no operand it
    fails with the empty message [""]; a non-symbol first operand [o] fails
    with ["Expect Symbol/identifier ..."]; a symbol with no second operand
    fails with ["Expect binding an Object to a variable ..."]; otherwise the
    second operand is evaluated in [env], its value is [set] under the
    symbol's name in the environment it left, and the form returns [Void];
    an error of the value expression is returned as it is. *)
Theorem eval_define_spec (env : Environment) (dl l : option Location) :
  eval (List [Symbol "define" dl] l) env = (RErr ErrEmpty, env) /\
  (forall (o : Object) (rest : list Object),
     (forall s sl, o <> Symbol s sl) ->
     eval (List (Symbol "define" dl :: o :: rest) l) env =
     (RErr (ErrExpectSymbol o), env)) /\
  (forall (name : string) (nl : option Location),
     eval (List [Symbol "define" dl; Symbol name nl] l) env =
     (RErr (ErrExpectBinding nl), env)) /\
  (forall (name : string) (nl : option Location) (e : Object) (rest : list Object),
     eval (List (Symbol "define" dl :: Symbol name nl :: e :: rest) l) env =
     match eval e env with
     | (ROk v, env1) => (ROk (Void None), Environment_set env1 name v)
     | r => r
     end).
Proof.
  split; [reflexivity|split; [|split]].
  - intros o rest Ho.
    destruct o as [| | | | |s sl| |]; try reflexivity.
    exfalso. exact (Ho s sl eq_refl).
  - reflexivity.
  - reflexivity.
Qed.

(** ** C10: [define] writes nothing when it fails *)

(** An evaluation that returns [Err] has not written to its environment: the
    only write is the [set] of [eval_define], which runs after its value has
    evaluated to [Ok] and is followed by [Ok]. *)
Lemma eval_obj_err_env_unchanged :
  forall (o : Object) (env : Environment) (e : EvalError) (env' : Environment),
    eval_obj o env = (RErr e, env') -> env' = env.
Proof.
  fix IH 1.
  intros [| | | | |s sl|fd fl|xs l] env e env' H; cbn [eval_obj] in H;
    try discriminate H.
  - unfold eval_symbol in H.
    destruct (Environment_get env s); inversion H; reflexivity.
  - unfold eval_list in H.
    destruct xs as [|h args]; [discriminate H|].
    destruct h as [| | | | |s sl| |]; try discriminate H.
    destruct (String.eqb s "define").
    + unfold eval_define in H.
      destruct args as [|o rest]; [inversion H; reflexivity|].
      destruct o as [| | | | |name nl| |]; try (inversion H; reflexivity).
      destruct rest as [|v rest']; [inversion H; reflexivity|].
      destruct (eval_obj v env) as [r env1] eqn:Ev.
      destruct r; try discriminate H.
      injection H as -> <-. exact (IH v env e env1 Ev).
    + destruct (String.eqb s "if").
      * unfold eval_if in H.
        destruct args as [|c args']; [inversion H; reflexivity|].
        destruct c as [| | |[|] bl| | | |]; try discriminate H.
        -- destruct args' as [|t rest]; [inversion H; reflexivity|].
           exact (IH t env e env' H).
        -- destruct args' as [|t [|f rest]]; try (inversion H; reflexivity).
           exact (IH f env e env' H).
      * destruct (String.eqb s "lambda"); discriminate H.
Qed.

(** C10: when a [define] form returns an error (no operand, a non-symbol
    name, no value operand, or a failing value expression) the environment
    is left exactly as it was: no binding inserted or overwritten. *)
Theorem eval_define_err_atomic (env : Environment) (dl l : option Location)
    (args : list Object) (e : EvalError) (env' : Environment)
    (Herr : eval (List (Symbol "define" dl :: args) l) env = (RErr e, env')) :
  env' = env.
Proof. exact (eval_obj_err_env_unchanged _ _ _ _ Herr). Qed.

Lemma eval_define_err_atomic_witness :
  let env := Environment_set root "y" (int 1) in
  eval (form [sym "define"; sym "y"; sym "nope"]) env =
    (RErr (ErrSymbolNotFound "nope"), env) /\
  env = env.
Proof.
  intros env. split; [reflexivity|].
  exact (eval_define_err_atomic env None None [sym "y"; sym "nope"]
           (ErrSymbolNotFound "nope") env eq_refl).
Defined.

(** * Further properties of the evaluator *)

(** Objects that [eval_obj] returns as they are (every kind but [Symbol]
    and [List]). *)
Definition atomic (o : Object) : bool :=
  match o with
  | Symbol _ _ | List _ _ => false
  | _ => true
  end.

(** Every value bound in an environment, or in one of its ancestors, is
    atomic. *)
Fixpoint env_wf (env : Environment) : Prop :=
  match env with
  | mkEnvironment p vs =>
      map_Forall (fun _ v => atomic v = true) vs /\
      match p with
      | Some e => env_wf e
      | None => True
      end
  end.

Lemma Environment_get_atomic :
  forall (env : Environment) (n : string) (v : Object),
    env_wf env -> Environment_get env n = Some v -> atomic v = true.
Proof.
  fix IH 1.
  intros [p vs] n v [Hvs Hp] H. cbn [Environment_get] in H.
  destruct (vs !! n) as [w|] eqn:Hn.
  - injection H as <-. exact (Hvs n w Hn).
  - destruct p as [e|]; [|discriminate H].
    exact (IH e n v Hp H).
Qed.

Lemma Environment_set_wf (env : Environment) (n : string) (v : Object) :
  env_wf env -> atomic v = true -> env_wf (Environment_set env n v).
Proof.
  destruct env as [p vs]. intros [Hvs Hp] Hv. split; [|exact Hp].
  cbn [vars]. by apply map_Forall_insert_2.
Qed.

Lemma root_wf : env_wf root.
Proof.
  split; [|exact I].
  intros k v H. apply (Environment_new_vars_lookup None) in H. by subst.
Qed.

(** [Environment::set] then [Environment::get]: the name now resolves to the
    value just set, every other name resolves as before. *)
Theorem Environment_get_set (env : Environment) (n : string) (v : Object) :
  Environment_get (Environment_set env n v) n = Some v /\
  (forall m : string, m <> n ->
     Environment_get (Environment_set env n v) m = Environment_get env m).
Proof.
  destruct env as [p vs]. unfold Environment_set. cbn [parent vars Environment_get].
  split.
  - by rewrite lookup_insert_eq.
  - intros m Hm. by rewrite lookup_insert_ne by congruence.
Qed.

(** Evaluation never replaces the parent of the environment it runs in: it
    writes to the local table only. *)
Theorem eval_preserves_parent :
  forall (o : Object) (env : Environment),
    parent (snd (eval o env)) = parent env.
Proof.
  unfold eval. fix IH 1.
  intros [| | | | |s sl|fd fl|xs l] env; cbn [eval_obj]; try reflexivity.
  - unfold eval_symbol. by destruct (Environment_get env s).
  - unfold eval_list.
    destruct xs as [|h args]; [reflexivity|].
    destruct h as [| | | | |s sl| |]; try reflexivity.
    destruct (String.eqb s "define").
    + unfold eval_define.
      destruct args as [|o rest]; [reflexivity|].
      destruct o as [| | | | |name nl| |]; try reflexivity.
      destruct rest as [|v rest']; [reflexivity|].
      pose proof (IH v env) as Hv.
      destruct (eval_obj v env) as [r env1]. cbn [snd] in Hv.
      destruct r; exact Hv.
    + destruct (String.eqb s "if").
      * unfold eval_if.
        destruct args as [|c args']; [reflexivity|].
        destruct c as [| | |[|] bl| | | |]; try reflexivity.
        -- destruct args' as [|t rest]; [reflexivity|]. exact (IH t env).
        -- destruct args' as [|t [|f rest]]; try reflexivity. exact (IH f env).
      * destruct (String.eqb s "lambda"); reflexivity.
Qed.

(** Only a successful evaluation can change the environment: after an
    error, a panic, or a lambda form, the environment is as it was. *)
Theorem eval_non_ok_env_unchanged (o : Object) (env : Environment) :
  match fst (eval o env) with
  | ROk _ => True
  | _ => snd (eval o env) = env
  end.
Proof.
  revert o env. unfold eval. fix IH 1.
  intros [| | | | |s sl|fd fl|xs l] env; cbn [eval_obj]; try exact I.
  - unfold eval_symbol. by destruct (Environment_get env s).
  - unfold eval_list.
    destruct xs as [|h args]; [exact I|].
    destruct h as [| | | | |s sl| |]; try reflexivity.
    destruct (String.eqb s "define").
    + unfold eval_define.
      destruct args as [|o rest]; [reflexivity|].
      destruct o as [| | | | |name nl| |]; try reflexivity.
      destruct rest as [|v rest']; [reflexivity|].
      pose proof (IH v env) as Hv.
      destruct (eval_obj v env) as [r env1]. cbn [fst snd] in Hv |- *.
      destruct r; exact Hv || exact I.
    + destruct (String.eqb s "if").
      * unfold eval_if.
        destruct args as [|c args']; [reflexivity|].
        destruct c as [| | |[|] bl| | | |]; try reflexivity.
        -- destruct args' as [|t rest]; [reflexivity|]. exact (IH t env).
        -- destruct args' as [|t [|f rest]]; try reflexivity. exact (IH f env).
      * destruct (String.eqb s "lambda"); reflexivity.
Qed.

(** A [define] whose value expression evaluates to [v] returns [Void],
    after which the name resolves to [v] and every other name resolves as it
    did after the value expression. *)
Theorem eval_define_then_get (env env1 : Environment) (dl nl l : option Location)
    (name : string) (e : Object) (rest : list Object) (v : Object)
    (Hval : eval e env = (ROk v, env1)) :
  let '(r, env2) := eval (List (Symbol "define" dl :: Symbol name nl :: e :: rest) l) env in
  r = ROk (Void None) /\
  Environment_get env2 name = Some v /\
  (forall m : string, m <> name -> Environment_get env2 m = Environment_get env1 m).
Proof.
  unfold eval in *. cbn [eval_obj eval_list String.eqb Ascii.eqb Bool.eqb eval_define].
  rewrite Hval. split; [reflexivity|]. apply Environment_get_set.
Qed.

Lemma eval_define_then_get_witness :
  eval (int 10) root = (ROk (int 10), root) /\
  (let '(r, env2) := eval (form [sym "define"; sym "x"; int 10]) root in
   r = ROk (Void None) /\
   Environment_get env2 "x" = Some (int 10) /\
   (forall m : string, m <> "x" -> Environment_get env2 m = Environment_get root m)).
Proof.
  split; [reflexivity|].
  exact (eval_define_then_get root root None None None "x" (int 10) [] (int 10) eq_refl).
Defined.

(** In an environment whose bindings are all atomic (the root one is),
    evaluation returns an atomic value (one that evaluates to itself) and
    keeps every binding atomic. *)
Theorem eval_wf_atomic :
  forall (o : Object) (env : Environment) (r : Outcome) (env' : Environment),
    env_wf env -> eval o env = (r, env') ->
    env_wf env' /\ (forall v, r = ROk v -> atomic v = true).
Proof.
  unfold eval. fix IH 1.
  intros [| | | | |s sl|fd fl|xs l] env r env' Hwf H; cbn [eval_obj] in H;
    try (injection H as <- <-; split; [exact Hwf|intros v Hv; injection Hv as <-; reflexivity]).
  - unfold eval_symbol in H.
    destruct (Environment_get env s) as [w|] eqn:Hg; injection H as <- <-;
      split; try exact Hwf; intros v Hv; try discriminate Hv.
    injection Hv as <-. exact (Environment_get_atomic env s w Hwf Hg).
  - assert (Hstay : forall r0, (r0, env) = (r, env') ->
                    (forall v, r0 <> ROk v) -> env_wf env' /\ (forall v, r = ROk v -> atomic v = true)).
    { intros r0 E Hr0. injection E as <- <-. split; [exact Hwf|].
      intros v Hv. subst. exfalso. exact (Hr0 v eq_refl). }
    unfold eval_list in H.
    destruct xs as [|h args].
    { injection H as <- <-. split; [exact Hwf|]. intros v Hv. by injection Hv as <-. }
    destruct h as [| | | | |s sl| |]; try (apply (Hstay _ H); discriminate).
    destruct (String.eqb s "define").
    + unfold eval_define in H.
      destruct args as [|o rest]; [apply (Hstay _ H); discriminate|].
      destruct o as [| | | | |name nl| |]; try (apply (Hstay _ H); discriminate).
      destruct rest as [|w rest']; [apply (Hstay _ H); discriminate|].
      destruct (eval_obj w env) as [r1 env1] eqn:Ew.
      destruct (IH w env r1 env1 Hwf Ew) as [Hwf1 Hr1].
      destruct r1 as [val| | |]; injection H as <- <-;
        try (split; [exact Hwf1|exact Hr1]).
      split.
      * apply Environment_set_wf; [exact Hwf1|exact (Hr1 val eq_refl)].
      * intros v Hv. by injection Hv as <-.
    + destruct (String.eqb s "if").
      * unfold eval_if in H.
        destruct args as [|c args']; [apply (Hstay _ H); discriminate|].
        destruct c as [| | |[|] bl| | | |]; try (apply (Hstay _ H); discriminate).
        -- destruct args' as [|t rest]; [apply (Hstay _ H); discriminate|].
           exact (IH t env r env' Hwf H).
        -- destruct args' as [|t [|f rest]]; try (apply (Hstay _ H); discriminate).
           exact (IH f env r env' Hwf H).
      * destruct (String.eqb s "lambda"); apply (Hstay _ H); discriminate.
Qed.

Lemma eval_wf_atomic_witness :
  env_wf root /\
  eval (form [sym "define"; sym "x"; int 10]) root =
    (ROk (Void None), Environment_set root "x" (int 10)) /\
  env_wf (Environment_set root "x" (int 10)) /\
  (forall v, ROk (Void None) = ROk v -> atomic v = true).
Proof.
  split; [exact root_wf|]. split; [reflexivity|].
  exact (eval_wf_atomic (form [sym "define"; sym "x"; int 10]) root
           (ROk (Void None)) (Environment_set root "x" (int 10)) root_wf eq_refl).
Defined.

(** * parser.rs: [parse] and [parse_list] *)

(** lexer.rs's [TokenKind]; [Integer] and [Float] payloads as in [Object]. *)
Inductive TokenKind :=
| LeftParenthesis
| RightParenthesis
| TInteger (n : Z)
| TFloat (n : Z)
| TStr (s : string)
| TSymbol (s : string)
| Comment (s : string)
| IGNORE
| UNKNOWN.

Record Token := mkToken {
  token_loc : Location;
  token_kind : TokenKind
}.

(** The messages of [parse] and [parse_list], by their [format!]. *)
Inductive ParseError :=
| ErrUnknownSymbols (at_ : Location)   (** ["Unknown symbols found at {}"] *)
| ErrUnexpectedRight (at_ : Location)  (** ["Unexpected Right parenthesis `)` at {}"] *)
| ErrUnclosed (at_ : Location).        (** ["Unclosed List found at {}"] *)

(** The result of a parsing function: [Ok] with the tokens left in the
    [VecDeque], [Err], the panic of [last_token.unwrap()], or [POutOfFuel],
    which never happens with the fuel [parse] and [parse_list] give (every
    step pops a token first, and they give one unit per token). *)
Inductive PResult (A : Type) :=
| POk (a : A) (rest : list Token)
| PErr (e : ParseError)
| PPanic
| POutOfFuel.
Arguments POk {A}. Arguments PErr {A}. Arguments PPanic {A}. Arguments POutOfFuel {A}.

(** The [while let Some(token) = tokens.pop_front()] loop of [parse_list],
    with its [objects] and [last_token]; a comment or whitespace token
    [continue]s before [last_token] is updated. *)
Fixpoint parse_list_loop (fuel : nat) (tokens : list Token) (objects : list Object)
    (last_token : option Token) : PResult (list Object) :=
  match tokens with
  | [] =>
      match last_token with
      | Some t => PErr (ErrUnclosed (token_loc t))
      | None => PPanic
      end
  | token :: tokens' =>
      match fuel with
      | 0 => POutOfFuel
      | S fuel' =>
          let loc := token_loc token in
          match token_kind token with
          | Comment _ | IGNORE => parse_list_loop fuel' tokens' objects last_token
          | UNKNOWN => PErr (ErrUnknownSymbols loc)
          | LeftParenthesis =>
              match parse_list_loop fuel' tokens' [] None with
              | POk list rest =>
                  parse_list_loop fuel' rest (objects ++ [List list None]) (Some token)
              | PErr e => PErr e
              | PPanic => PPanic
              | POutOfFuel => POutOfFuel
              end
          | RightParenthesis => POk objects tokens'
          | TFloat n => parse_list_loop fuel' tokens' (objects ++ [Float n (Some loc)]) (Some token)
          | TInteger n => parse_list_loop fuel' tokens' (objects ++ [Integer n (Some loc)]) (Some token)
          | TStr s => parse_list_loop fuel' tokens' (objects ++ [Str s (Some loc)]) (Some token)
          | TSymbol s => parse_list_loop fuel' tokens' (objects ++ [Symbol s (Some loc)]) (Some token)
          end
      end
  end.

(** [parse_list]: "the left parenthesis has been taken". *)
Definition parse_list (tokens : list Token) : PResult (list Object) :=
  parse_list_loop (length tokens) tokens [] None.

(** The location [parse] gives the whole program. *)
Definition program_loc : Location := Location_new (Some EmptyString) 1 1.

(** The loop of [parse]. *)
Fixpoint parse_loop (fuel : nat) (tokens : list Token) (objects : list Object)
  : PResult Object :=
  match tokens with
  | [] => POk (List objects (Some program_loc)) []
  | token :: tokens' =>
      match fuel with
      | 0 => POutOfFuel
      | S fuel' =>
          let loc := token_loc token in
          match token_kind token with
          | Comment _ | IGNORE => parse_loop fuel' tokens' objects
          | UNKNOWN => PErr (ErrUnknownSymbols loc)
          | LeftParenthesis =>
              match parse_list_loop fuel' tokens' [] None with
              | POk list rest => parse_loop fuel' rest (objects ++ [List list None])
              | PErr e => PErr e
              | PPanic => PPanic
              | POutOfFuel => POutOfFuel
              end
          | RightParenthesis => PErr (ErrUnexpectedRight loc)
          | TFloat n => parse_loop fuel' tokens' (objects ++ [Float n (Some loc)])
          | TInteger n => parse_loop fuel' tokens' (objects ++ [Integer n (Some loc)])
          | TStr s => parse_loop fuel' tokens' (objects ++ [Str s (Some loc)])
          | TSymbol s => parse_loop fuel' tokens' (objects ++ [Symbol s (Some loc)])
          end
      end
  end.

(** [parse] *)
Definition parse (tokens : list Token) : PResult Object :=
  parse_loop (length tokens) tokens [].

(** Concrete tokens. *)
Definition tloc : Location := Location_new (Some "t.lisp") 1 1.
Definition tk (k : TokenKind) : Token := mkToken tloc k.

Example parse_define :
  parse [tk LeftParenthesis; tk (TSymbol "define"); tk IGNORE; tk (TSymbol "x");
         tk IGNORE; tk (TInteger 10); tk RightParenthesis] =
  POk (List [List [Symbol "define" (Some tloc); Symbol "x" (Some tloc);
                   Integer 10 (Some tloc)] None] (Some program_loc)) [].
Proof. reflexivity. Qed.

Example parse_unclosed :
  parse [tk (TStr "Atom!"); tk LeftParenthesis; tk (TSymbol "define")] =
  PErr (ErrUnclosed tloc).
Proof. reflexivity. Qed.

Example parse_lone_paren : parse [tk LeftParenthesis] = PPanic.
Proof. reflexivity. Qed.

Example parse_stray_right :
  parse [tk LeftParenthesis; tk RightParenthesis; tk RightParenthesis] =
  PErr (ErrUnexpectedRight tloc).
Proof. reflexivity. Qed.

(** ** What the parser builds *)

(** The objects [parse] can build: atoms [Integer], [Float], [Str],
    [Symbol] with a location, and lists of them with [loc: None]. *)
Fixpoint reader_shaped (o : Object) : bool :=
  match o with
  | Integer _ (Some _) | Float _ (Some _) | Str _ (Some _) | Symbol _ (Some _) => true
  | List xs None => forallb reader_shaped xs
  | _ => false
  end.

(** The location of the parentheses [to_tokens] writes. *)
Definition paren_loc : Location := Location_new None 0 0.

(** A token stream that reads back as [o]: an atom is its own token, a list
    is its elements between parentheses. *)
Fixpoint to_tokens (o : Object) : list Token :=
  match o with
  | Integer n (Some l) => [mkToken l (TInteger n)]
  | Float n (Some l) => [mkToken l (TFloat n)]
  | Str s (Some l) => [mkToken l (TStr s)]
  | Symbol s (Some l) => [mkToken l (TSymbol s)]
  | List xs _ =>
      mkToken paren_loc LeftParenthesis ::
      flat_map to_tokens xs ++ [mkToken paren_loc RightParenthesis]
  | _ => []
  end.

(** The token [parse_list] records as [last_token] after reading [o]. *)
Definition first_token (o : Object) : Token :=
  match o with
  | Integer n (Some l) => mkToken l (TInteger n)
  | Float n (Some l) => mkToken l (TFloat n)
  | Str s (Some l) => mkToken l (TStr s)
  | Symbol s (Some l) => mkToken l (TSymbol s)
  | _ => mkToken paren_loc LeftParenthesis
  end.

(** [last_token] after a run of objects. *)
Fixpoint last_tok (xs : list Object) (lt : option Token) : option Token :=
  match xs with
  | [] => lt
  | x :: xs' => last_tok xs' (Some (first_token x))
  end.

Definition is_list (o : Object) : bool :=
  match o with List _ _ => true | _ => false end.

Section ObjectListInd.
Variable P : Object -> Prop.
Hypothesis Hother : forall o, is_list o = false -> P o.
Hypothesis Hlist : forall xs l, Forall P xs -> P (List xs l).

(** Induction over [Object] through the elements of its lists. *)
Fixpoint Object_list_ind (o : Object) : P o :=
  match o as o0 return P o0 with
  | List xs l =>
      Hlist xs l
        ((fix go (ys : list Object) : Forall P ys :=
            match ys with
            | [] => @List.Forall_nil _ P
            | y :: ys' => @List.Forall_cons _ P y ys' (Object_list_ind y) (go ys')
            end) xs)
  | Void l => Hother (Void l) eq_refl
  | Integer n l => Hother (Integer n l) eq_refl
  | Float n l => Hother (Float n l) eq_refl
  | Bool b l => Hother (Bool b l) eq_refl
  | Str s l => Hother (Str s l) eq_refl
  | Symbol s l => Hother (Symbol s l) eq_refl
  | Lambda fd l => Hother (Lambda fd l) eq_refl
  end.
End ObjectListInd.

Lemma to_tokens_nonempty (o : Object) :
  reader_shaped o = true -> 1 <= length (to_tokens o).
Proof.
  destruct o as [|n [l|]|n [l|]|b l|s [l|]|s [l|]|fd l|xs [l|]]; cbn;
    try discriminate; intros; try lia.
Qed.

Lemma length_flat_map_to_tokens (xs : list Object) :
  Forall (fun x => reader_shaped x = true) xs ->
  length xs <= length (flat_map to_tokens xs).
Proof.
  induction 1 as [|x xs Hx _ IH]; cbn; [lia|].
  rewrite length_app. pose proof (to_tokens_nonempty x Hx). lia.
Qed.

Lemma reader_shaped_list (xs : list Object) (l : option Location) :
  reader_shaped (List xs l) = true ->
  l = None /\ Forall (fun x => reader_shaped x = true) xs.
Proof.
  destruct l; cbn; [discriminate|]. intros H. split; [reflexivity|].
  apply List.Forall_forall. intros x Hx. exact (proj1 (forallb_forall _ _) H x Hx).
Qed.

(** [parse_list] reads the tokens of a run of objects, then stands where
    they end, with the objects pushed and [last_token] the last one's
    first token. *)
Definition consumes (xs : list Object) : Prop :=
  forall (f : nat) (rest : list Token) (objs : list Object) (lt : option Token),
    length (flat_map to_tokens xs ++ rest) <= f ->
    parse_list_loop f (flat_map to_tokens xs ++ rest) objs lt =
    parse_list_loop (f - length xs) rest (objs ++ xs) (last_tok xs lt) /\
    length rest <= f - length xs.

Lemma consumes_nil : consumes [].
Proof. intros f rest objs lt H. cbn in *. rewrite app_nil_r, Nat.sub_0_r. auto. Qed.

(** One object read inside a list: one unit of fuel, then the rest. *)
Definition reads_one (o : Object) : Prop :=
  forall (f : nat) (rest : list Token) (objs : list Object) (lt : option Token),
    length (to_tokens o ++ rest) <= S f ->
    parse_list_loop (S f) (to_tokens o ++ rest) objs lt =
    parse_list_loop f rest (objs ++ [o]) (Some (first_token o)).

Lemma consumes_cons (x : Object) (xs : list Object) :
  reader_shaped x = true -> reads_one x -> consumes xs -> consumes (x :: xs).
Proof.
  intros Hx Hone Hxs f rest objs lt H.
  cbn [flat_map] in *. rewrite <- app_assoc in *.
  pose proof (to_tokens_nonempty x Hx) as Hne.
  rewrite length_app in H.
  destruct f as [|f]; [lia|].
  rewrite Hone by (rewrite length_app; lia).
  destruct (Hxs f rest (objs ++ [x])%list (Some (first_token x))) as [E Hlen];
    [rewrite length_app in *; lia|].
  rewrite E. cbn [length]. rewrite Nat.sub_succ, <- app_assoc. cbn [app].
  split; [reflexivity|lia].
Qed.

Lemma consumes_all (xs : list Object) :
  Forall (fun x => reader_shaped x = true /\ reads_one x) xs -> consumes xs.
Proof.
  induction 1 as [|x xs [Hx Hone] _ IH]; [exact consumes_nil|].
  exact (consumes_cons x xs Hx Hone IH).
Qed.

(** The closing parenthesis after a run of objects: [Ok] with them. *)
Lemma consumes_closed (xs : list Object) (f : nat) (l : Location) (rest : list Token) :
  consumes xs ->
  length (flat_map to_tokens xs ++ mkToken l RightParenthesis :: rest) <= f ->
  parse_list_loop f (flat_map to_tokens xs ++ mkToken l RightParenthesis :: rest) [] None =
  POk xs rest.
Proof.
  intros Hc H. destruct (Hc f _ [] None H) as [E Hlen]. rewrite E.
  cbn [length] in Hlen. destruct (f - length xs) as [|k]; [lia|]. reflexivity.
Qed.

Lemma reads_one_all (o : Object) : reader_shaped o = true -> reads_one o.
Proof.
  revert o.
  apply (Object_list_ind (fun o => reader_shaped o = true -> reads_one o)).
  - intros o Hnl Hs f rest objs lt H.
    destruct o as [|n [l|]|n [l|]|b l|s [l|]|s [l|]|fd l|xs l];
      cbn in Hs, Hnl; try discriminate; reflexivity.
  - intros xs l Hall Hs. apply reader_shaped_list in Hs as [-> Hxs].
    assert (Hc : consumes xs).
    { apply consumes_all. clear - Hall Hxs.
      induction Hall as [|x xs Px _ IH]; [constructor|].
      inversion Hxs as [|? ? Hx Hxs']; subst.
      constructor; [split; [exact Hx|exact (Px Hx)]|exact (IH Hxs')]. }
    intros f rest objs lt H.
    cbn [to_tokens app] in *. rewrite <- app_assoc in *. cbn [app] in *.
    cbn [parse_list_loop token_kind].
    rewrite (consumes_closed xs f paren_loc rest Hc) by (cbn [length] in H; lia).
    reflexivity.
Qed.

Lemma consumes_shaped (xs : list Object) :
  Forall (fun x => reader_shaped x = true) xs -> consumes xs.
Proof.
  intros Hxs. apply consumes_all.
  induction Hxs as [|x xs Hx _ IH]; constructor; [|exact IH].
  split; [exact Hx|exact (reads_one_all x Hx)].
Qed.

(** [parse] reads the tokens of a run of objects, then stands where they
    end with the objects pushed. *)
Lemma parse_loop_consumes (xs : list Object) :
  Forall (fun x => reader_shaped x = true) xs ->
  forall (f : nat) (rest : list Token) (objs : list Object),
    length (flat_map to_tokens xs ++ rest) <= f ->
    parse_loop f (flat_map to_tokens xs ++ rest) objs =
    parse_loop (f - length xs) rest (objs ++ xs) /\
    length rest <= f - length xs.
Proof.
  induction 1 as [|x xs Hx Hxs IH]; intros f rest objs H.
  { cbn in *. rewrite app_nil_r, Nat.sub_0_r. auto. }
  cbn [flat_map] in *. rewrite <- app_assoc in *.
  pose proof (to_tokens_nonempty x Hx) as Hne.
  rewrite length_app in H.
  destruct f as [|f]; [lia|].
  assert (Hstep : parse_loop (S f) (to_tokens x ++ flat_map to_tokens xs ++ rest) objs =
                  parse_loop f (flat_map to_tokens xs ++ rest) (objs ++ [x])).
  { destruct x as [|n [l|]|n [l|]|b l|s [l|]|s [l|]|fd l|ys l];
      cbn in Hx; try discriminate; try reflexivity.
    apply reader_shaped_list in Hx as [-> Hys].
    cbn [to_tokens app]. rewrite <- app_assoc. cbn [app parse_loop token_kind].
    rewrite (consumes_closed ys f paren_loc (flat_map to_tokens xs ++ rest)
               (consumes_shaped ys Hys)).
    - reflexivity.
    - cbn [to_tokens length] in H. rewrite !length_app in *. cbn [length] in *.
      rewrite !length_app in *. lia. }
  rewrite Hstep.
  destruct (IH f rest (objs ++ [x])%list) as [E Hlen]; [lia|].
  rewrite E. cbn [length]. rewrite Nat.sub_succ, <- app_assoc. cbn [app].
  split; [reflexivity|lia].
Qed.

Lemma last_tok_last (xs : list Object) (lt : option Token) (x : Object) :
  last xs = Some x -> last_tok xs lt = Some (first_token x).
Proof.
  revert lt. induction xs as [|y xs IH]; intros lt H; [discriminate H|].
  destruct xs as [|z zs]; [injection H as <-; reflexivity|].
  cbn [last_tok]. exact (IH (Some (first_token y)) H).
Qed.

Lemma reader_shaped_list_intro (xs : list Object) :
  Forall (fun x => reader_shaped x = true) xs -> reader_shaped (List xs None) = true.
Proof.
  intros H. cbn. apply forallb_forall. intros x Hx.
  exact (proj1 (List.Forall_forall _ _) H x Hx).
Qed.

Lemma parse_list_loop_shaped :
  forall (f : nat) (ts : list Token) (objs : list Object) (lt : option Token)
         (ys : list Object) (rest : list Token),
    Forall (fun x => reader_shaped x = true) objs ->
    parse_list_loop f ts objs lt = POk ys rest ->
    Forall (fun x => reader_shaped x = true) ys.
Proof.
  induction f as [|f IH]; intros ts objs lt ys rest Hobjs H.
  { destruct ts; [destruct lt|]; discriminate H. }
  destruct ts as [|t ts]; [destruct lt; discriminate H|].
  cbn [parse_list_loop] in H.
  destruct (token_kind t) as [| |n|n|s|s|s| |]; try discriminate H;
    try (apply (IH _ _ _ _ _ Hobjs H));
    try (apply (fun Hf => IH _ _ _ _ _ Hf H); apply Forall_app; split; [exact Hobjs|];
         repeat constructor).
  - destruct (parse_list_loop f ts [] None) as [inner r| | |] eqn:En; try discriminate H.
    apply (fun Hf => IH _ _ _ _ _ Hf H). apply Forall_app; split; [exact Hobjs|].
    constructor; [|constructor].
    apply reader_shaped_list_intro. exact (IH _ _ _ _ _ (List.Forall_nil _) En).
  - injection H as <- _. exact Hobjs.
Qed.

Lemma parse_loop_shaped :
  forall (f : nat) (ts : list Token) (objs : list Object) (o : Object) (rest : list Token),
    Forall (fun x => reader_shaped x = true) objs ->
    parse_loop f ts objs = POk o rest ->
    exists xs, o = List xs (Some program_loc) /\
               Forall (fun x => reader_shaped x = true) xs.
Proof.
  induction f as [|f IH]; intros ts objs o rest Hobjs H.
  { destruct ts; [|discriminate H]. injection H as <- _. eauto. }
  destruct ts as [|t ts]; [injection H as <- _; eauto|].
  cbn [parse_loop] in H.
  destruct (token_kind t) as [| |n|n|s|s|s| |]; try discriminate H;
    try (apply (IH _ _ _ _ Hobjs H));
    try (apply (fun Hf => IH _ _ _ _ Hf H); apply Forall_app; split; [exact Hobjs|];
         repeat constructor).
  destruct (parse_list_loop f ts [] None) as [inner r| | |] eqn:En; try discriminate H.
  apply (fun Hf => IH _ _ _ _ Hf H). apply Forall_app; split; [exact Hobjs|].
  constructor; [|constructor].
  apply reader_shaped_list_intro.
  exact (parse_list_loop_shaped _ _ _ _ _ _ (List.Forall_nil _) En).
Qed.

(** An [if] form whose condition operand is something the parser builds
    (never a [Bool]) panics at [unimplemented!()]. *)
Lemma eval_if_shaped_condition (env : Environment) (sl l : option Location)
    (c : Object) (args : list Object) :
  reader_shaped c = true ->
  eval (List (Symbol "if" sl :: c :: args) l) env = (RPanic Unimplemented, env).
Proof.
  destruct c as [|n [cl|]|n [cl|]|b cl|s [cl|]|s [cl|]|fd cl|xs cl];
    cbn [reader_shaped]; intros H; try discriminate H; reflexivity.
Qed.

(** ** Parser theorems *)

Definition shaped_all (xs : list Object) : Prop :=
  Forall (fun x => reader_shaped x = true) xs.

(** [parse] reads back any run of parser-shaped objects from their tokens:
    the program is the list of them, at line 1, column 1 of the empty file name. *)
Theorem parse_to_tokens (xs : list Object) (Hxs : shaped_all xs) :
  parse (flat_map to_tokens xs) = POk (List xs (Some program_loc)) [].
Proof.
  unfold parse.
  destruct (parse_loop_consumes xs Hxs (length (flat_map to_tokens xs)) [] [])
    as [E _]; [rewrite app_nil_r; lia|].
  rewrite app_nil_r in E. rewrite E.
  destruct (_ - length xs); reflexivity.
Qed.

(** A sample program: [(define x 10) (f "s" (g))]. *)
Definition sample_forms : list Object :=
  [List [Symbol "define" (Some tloc); Symbol "x" (Some tloc); Integer 10 (Some tloc)] None;
   List [Symbol "f" (Some tloc); Str "s" (Some tloc); List [Symbol "g" (Some tloc)] None] None].

Lemma sample_forms_shaped : shaped_all sample_forms.
Proof. repeat constructor. Qed.

Lemma parse_to_tokens_witness :
  shaped_all sample_forms /\
  parse (flat_map to_tokens sample_forms) = POk (List sample_forms (Some program_loc)) [].
Proof.
  split; [exact sample_forms_shaped|].
  exact (parse_to_tokens sample_forms sample_forms_shaped).
Defined.

(** A [)] at the top level, after any complete objects, makes [parse] fail
    with "Unexpected Right parenthesis" at that token. *)
Theorem parse_stray_right_paren (xs : list Object) (l : Location) (rest : list Token)
    (Hxs : shaped_all xs) :
  parse (flat_map to_tokens xs ++ mkToken l RightParenthesis :: rest) =
  PErr (ErrUnexpectedRight l).
Proof.
  unfold parse.
  destruct (parse_loop_consumes xs Hxs
              (length (flat_map to_tokens xs ++ mkToken l RightParenthesis :: rest))
              (mkToken l RightParenthesis :: rest) []) as [E Hlen]; [lia|].
  rewrite E. cbn [length] in Hlen.
  destruct (_ - length xs) as [|k]; [lia|]. reflexivity.
Qed.

Lemma parse_stray_right_paren_witness :
  shaped_all sample_forms /\
  parse (flat_map to_tokens sample_forms ++ [mkToken tloc RightParenthesis]) =
  PErr (ErrUnexpectedRight tloc).
Proof.
  split; [exact sample_forms_shaped|].
  exact (parse_stray_right_paren sample_forms tloc [] sample_forms_shaped).
Defined.

(** A [(] that is never closed, followed by complete objects, makes [parse]
    fail with "Unclosed List" at the last token read at that level: the
    first token of the last object (its own [(] when it is a list). *)
Theorem parse_unclosed_list (l : Location) (xs : list Object) (x : Object)
    (Hxs : shaped_all xs) (Hlast : last xs = Some x) :
  parse (mkToken l LeftParenthesis :: flat_map to_tokens xs) =
  PErr (ErrUnclosed (token_loc (first_token x))).
Proof.
  unfold parse. cbn [length parse_loop token_kind].
  destruct (consumes_shaped xs Hxs (length (flat_map to_tokens xs)) [] [] None)
    as [E _]; [rewrite app_nil_r; lia|].
  rewrite app_nil_r in E. rewrite E.
  rewrite (last_tok_last xs None x Hlast).
  destruct (_ - length xs); reflexivity.
Qed.

Lemma parse_unclosed_list_witness :
  shaped_all sample_forms /\
  last sample_forms = Some (List [Symbol "f" (Some tloc); Str "s" (Some tloc);
                                 List [Symbol "g" (Some tloc)] None] None) /\
  parse (mkToken tloc LeftParenthesis :: flat_map to_tokens sample_forms) =
  PErr (ErrUnclosed paren_loc).
Proof.
  split; [exact sample_forms_shaped|]. split; [reflexivity|].
  exact (parse_unclosed_list tloc sample_forms _ sample_forms_shaped eq_refl).
Defined.

(** Comment and whitespace tokens. *)
Definition is_skipped (t : Token) : bool :=
  match token_kind t with Comment _ | IGNORE => true | _ => false end.

(** A [(] followed only by comments and whitespace (or by nothing) makes
    [parse] panic: [parse_list] reaches the end with no [last_token] and
    calls [unwrap()] on [None]. *)
Theorem parse_open_paren_panics (l : Location) (ts : list Token)
    (Hskip : Forall (fun t => is_skipped t = true) ts) :
  parse (mkToken l LeftParenthesis :: ts) = PPanic.
Proof.
  unfold parse. cbn [length parse_loop token_kind].
  assert (Hloop : forall f, length ts <= f -> parse_list_loop f ts [] None = PPanic).
  { clear l. induction Hskip as [|t ts Ht _ IH]; intros f Hf; [destruct f; reflexivity|].
    destruct f as [|f]; cbn [length] in Hf; [lia|].
    unfold is_skipped in Ht. cbn [parse_list_loop].
    destruct (token_kind t); try discriminate Ht; apply IH; lia. }
  rewrite Hloop by lia. reflexivity.
Qed.

Lemma parse_open_paren_panics_witness :
  Forall (fun t => is_skipped t = true) [tk IGNORE; tk (Comment " note")] /\
  parse [tk LeftParenthesis; tk IGNORE; tk (Comment " note")] = PPanic.
Proof.
  assert (H : Forall (fun t => is_skipped t = true) [tk IGNORE; tk (Comment " note")])
    by (repeat constructor).
  split; [exact H|]. exact (parse_open_paren_panics tloc _ H).
Defined.

(** Whatever [parse] returns is the list of the program's forms, each an
    [Integer], [Float], [Str] or [Symbol] with a location, or a list of
    such with no location: the parser never builds [Bool], [Void] or
    [Lambda] objects. *)
Theorem parse_output_shaped (ts : list Token) (o : Object) (rest : list Token)
    (H : parse ts = POk o rest) :
  exists xs, o = List xs (Some program_loc) /\ shaped_all xs.
Proof. exact (parse_loop_shaped _ ts [] o rest (List.Forall_nil _) H). Qed.

(** The tokens of [(if true 1 2)]. *)
Definition if_tokens : list Token :=
  [tk LeftParenthesis; tk (TSymbol "if"); tk IGNORE; tk (TSymbol "true"); tk IGNORE;
   tk (TInteger 1); tk IGNORE; tk (TInteger 2); tk RightParenthesis].

Definition if_form : Object :=
  List [Symbol "if" (Some tloc); Symbol "true" (Some tloc);
        Integer 1 (Some tloc); Integer 2 (Some tloc)] None.

Lemma parse_output_shaped_witness :
  parse if_tokens = POk (List [if_form] (Some program_loc)) [] /\
  exists xs, List [if_form] (Some program_loc) = List xs (Some program_loc) /\ shaped_all xs.
Proof.
  split; [reflexivity|].
  exact (parse_output_shaped if_tokens _ [] eq_refl).
Defined.

(** Every [if] form with a condition that [parse] returns as a top-level
    form panics when evaluated: its condition is never a [Bool] object
    ([true] reads as a symbol), and [eval_if] calls [unimplemented!()]. *)
Theorem parsed_if_panics (ts : list Token) (forms : list Object) (pl : option Location)
    (rest : list Token) (sl l : option Location) (c : Object) (args : list Object)
    (env : Environment)
    (Hparse : parse ts = POk (List forms pl) rest)
    (Hin : In (List (Symbol "if" sl :: c :: args) l) forms) :
  eval (List (Symbol "if" sl :: c :: args) l) env = (RPanic Unimplemented, env).
Proof.
  destruct (parse_output_shaped ts _ rest Hparse) as (xs & Exs & Hxs).
  injection Exs as -> _.
  pose proof (proj1 (List.Forall_forall _ _) Hxs _ Hin) as Hform.
  apply reader_shaped_list in Hform as [_ Hargs].
  inversion Hargs as [|? ? _ Hargs']. inversion Hargs' as [|? ? Hc _].
  exact (eval_if_shaped_condition env sl l c args Hc).
Qed.

Lemma parsed_if_panics_witness :
  parse if_tokens = POk (List [if_form] (Some program_loc)) [] /\
  In if_form [if_form] /\
  eval if_form root = (RPanic Unimplemented, root).
Proof.
  split; [reflexivity|]. split; [left; reflexivity|].
  exact (parsed_if_panics if_tokens [if_form] (Some program_loc) [] (Some tloc) None
           (Symbol "true" (Some tloc)) [Integer 1 (Some tloc); Integer 2 (Some tloc)]
           root eq_refl (or_introl eq_refl)).
Defined.

(** * lexer.rs: string literals *)

(** A Rust [char] is a Unicode scalar value, here an [N]. *)
(** The double-quote character. *)
Definition quote : N := 34.
(** The backslash character. *)
Definition backslash : N := 92.

(** The [loop] of [match_string_helper] over the [peekable] characters:
    [next_if], which only takes a character other than a double quote,
    stops (without consuming) at a quote or at the end; a backslash is counted and the character after it, whatever it is,
    is pushed and counted as well; a backslash with nothing after it ends
    the loop. *)
Fixpoint match_string_helper_loop (cs : list N) (string : list N) (counter : nat)
  : list N * nat :=
  match cs with
  | [] => (string, counter)
  | current_char :: cs' =>
      if N.eqb current_char quote then (string, counter)
      else if negb (N.eqb current_char backslash) then
        match_string_helper_loop cs' (string ++ [current_char]) (S counter)
      else
        match cs' with
        | [] => (string, S counter)
        | next_char :: cs'' =>
            match_string_helper_loop cs'' (string ++ [next_char]) (S (S counter))
        end
  end%list.

(** [match_string_helper]: the unescaped string and the number of
    characters to consume. *)
Definition match_string_helper (rest : list N) : list N * nat :=
  match_string_helper_loop rest [] 0.

(** [match_string]: a [tag] for the opening quote, the helper,
    [take(true_size)], a [tag] for the closing quote; [Some (rest, payload)] for [Ok((s, TokenKind::Str(..)))],
    [None] for a nom error. *)
Definition match_string (s : list N) : option (list N * list N) :=
  match s with
  | c :: s1 =>
      if N.eqb c quote then
        let '(string, true_size) := match_string_helper s1 in
        if Nat.ltb (length s1) true_size then None
        else
          match skipn true_size s1 with
          | c2 :: s2 => if N.eqb c2 quote then Some (s2, string) else None
          | [] => None
          end
      else None
  | [] => None
  end.

(** The source form of a string: a quote or a backslash is preceded by a
    backslash. *)
Definition escape (s : list N) : list N :=
  flat_map (fun c => if N.eqb c quote || N.eqb c backslash then [backslash; c] else [c]) s.

(** ASCII text as scalar values. *)
Definition chars (s : string) : list N :=
  map (fun a => N.of_nat (Ascii.nat_of_ascii a)) (list_ascii_of_string s).

(** The unit tests of lexer.rs. *)
Example match_string_helper_test1 :
  match_string_helper (chars "This is the string" ++ [quote])%list =
  (chars "This is the string", 18).
Proof. vm_compute. reflexivity. Qed.

Example match_string_helper_test2 :
  match_string_helper
    (chars "This is the string with " ++ [backslash; quote] ++ chars "Inner String" ++
     [backslash; quote] ++ chars " Done!" ++ [quote])%list =
  (chars "This is the string with " ++ [quote] ++ chars "Inner String" ++ [quote] ++
   chars " Done!", 46)%list.
Proof. vm_compute. reflexivity. Qed.

Lemma match_string_helper_loop_escape (s : list N) :
  forall (rest : list N) (acc : list N) (k : nat),
    (rest = [] \/ exists t, rest = quote :: t) ->
    match_string_helper_loop (escape s ++ rest) acc k =
    ((acc ++ s)%list, k + length (escape s)).
Proof.
  induction s as [|c s IH]; intros rest acc k Hrest.
  - cbn. rewrite app_nil_r, Nat.add_0_r.
    destruct Hrest as [->|[t ->]]; reflexivity.
  - unfold escape. cbn [flat_map]. fold (escape s).
    destruct (N.eqb c quote || N.eqb c backslash) eqn:Ec.
    + cbn [app match_string_helper_loop].
      replace (N.eqb backslash quote) with false by reflexivity.
      replace (negb (N.eqb backslash backslash)) with false by reflexivity.
      rewrite (IH rest _ _ Hrest). cbn [length].
      f_equal; [rewrite <- app_assoc; reflexivity|lia].
    + apply orb_false_iff in Ec as [Eq Eb].
      cbn [app match_string_helper_loop]. rewrite Eq, Eb. cbn [negb].
      rewrite (IH rest _ _ Hrest). cbn [length].
      f_equal; [rewrite <- app_assoc; reflexivity|lia].
Qed.

(** [match_string_helper] inverts [escape]: on the escaped form of [s]
    followed by a closing quote it returns [s] and the length of the escaped
    form, the number of characters before that quote. *)
Theorem match_string_helper_escape (s t : list N) :
  match_string_helper (escape s ++ quote :: t) = (s, length (escape s)).
Proof.
  unfold match_string_helper.
  rewrite (match_string_helper_loop_escape s (quote :: t) [] 0) by eauto.
  reflexivity.
Qed.

(** [match_string] reads back a string literal: an opening quote, the
    escaped form of [s] and a closing quote give the payload [s], with the
    input after the closing quote left over. *)
Theorem match_string_escape (s t : list N) :
  match_string (quote :: escape s ++ quote :: t) = Some (t, s).
Proof.
  unfold match_string. replace (N.eqb quote quote) with true by reflexivity.
  rewrite match_string_helper_escape.
  rewrite length_app. cbn [length].
  replace (Nat.ltb (length (escape s) + S (length t)) (length (escape s))) with false
    by (symmetry; apply Nat.ltb_ge; lia).
  rewrite skipn_app, Nat.sub_diag, skipn_all. cbn. reflexivity.
Qed.

(** A string literal with no closing quote is not matched: the helper
    consumes the whole input and the closing [tag] fails. *)
Theorem match_string_unterminated (s : list N) :
  match_string (quote :: escape s) = None.
Proof.
  unfold match_string. replace (N.eqb quote quote) with true by reflexivity.
  unfold match_string_helper.
  pose proof (match_string_helper_loop_escape s [] [] 0 (or_introl eq_refl)) as E.
  rewrite app_nil_r in E. rewrite E.
  replace (Nat.ltb (length (escape s)) (0 + length (escape s))) with false
    by (symmetry; apply Nat.ltb_ge; lia).
  rewrite Nat.add_0_l, skipn_all. reflexivity.
Qed.

Lemma match_string_helper_loop_stop :
  forall (cs acc : list N) (k : nat),
    let '(string, k') := match_string_helper_loop cs acc k in
    exists m, k' = k + m /\ m <= length cs /\ length string <= length acc + m /\
              (skipn m cs = [] \/ exists t, skipn m cs = quote :: t).
Proof.
  fix IH 1.
  intros [|c cs] acc k; cbn [match_string_helper_loop].
  { exists 0. repeat split; try lia. left; reflexivity. }
  destruct (N.eqb c quote) eqn:Eq.
  { exists 0. repeat split; cbn [length]; try lia.
    right. exists cs. apply N.eqb_eq in Eq. by subst. }
  destruct (negb (N.eqb c backslash)).
  - pose proof (IH cs (acc ++ [c])%list (S k)) as H.
    destruct (match_string_helper_loop cs (acc ++ [c])%list (S k)) as [str k'].
    destruct H as (m & -> & Hm & Hlen & Hstop).
    exists (S m). rewrite length_app in Hlen. cbn [length] in *.
    repeat split; try lia. exact Hstop.
  - destruct cs as [|n cs'].
    { exists 1. repeat split; cbn [length]; try lia. left; reflexivity. }
    pose proof (IH cs' (acc ++ [n])%list (S (S k))) as H.
    destruct (match_string_helper_loop cs' (acc ++ [n])%list (S (S k))) as [str k'].
    destruct H as (m & -> & Hm & Hlen & Hstop).
    exists (S (S m)). rewrite length_app in Hlen. cbn [length] in *.
    repeat split; try lia. exact Hstop.
Qed.

(** [match_string_helper] never asks for more characters than there are,
    never returns a longer string than it consumes, and stops exactly at
    the first unescaped quote or at the end of the input. *)
Theorem match_string_helper_stop (cs : list N) :
  let '(string, true_size) := match_string_helper cs in
  true_size <= length cs /\ length string <= true_size /\
  (skipn true_size cs = [] \/ exists t, skipn true_size cs = quote :: t).
Proof.
  unfold match_string_helper.
  pose proof (match_string_helper_loop_stop cs [] 0) as H.
  destruct (match_string_helper_loop cs [] 0) as [str k].
  destruct H as (m & -> & Hm & Hlen & Hstop). cbn [length] in *.
  repeat split; [lia|lia|exact Hstop].
Qed.

(** ** The fuel of the parser model is never exhausted *)

Lemma parse_list_loop_enough_fuel :
  forall (f : nat) (ts : list Token) (objs : list Object) (lt : option Token),
    length ts <= f ->
    parse_list_loop f ts objs lt <> POutOfFuel /\
    (forall ys rest, parse_list_loop f ts objs lt = POk ys rest -> length rest < length ts).
Proof.
  induction f as [|f IH]; intros ts objs lt Hf.
  { destruct ts as [|t ts]; [|cbn in Hf; lia].
    destruct lt; split; cbn; first [discriminate | intros ? ? H; discriminate H]. }
  destruct ts as [|t ts].
  { destruct lt; split; cbn; first [discriminate | intros ? ? H; discriminate H]. }
  cbn [length] in Hf.
  assert (Hgen : forall objs' lt',
             parse_list_loop f ts objs' lt' <> POutOfFuel /\
             (forall ys rest, parse_list_loop f ts objs' lt' = POk ys rest ->
                              length rest < length (t :: ts))).
  { intros objs' lt'. destruct (IH ts objs' lt' ltac:(lia)) as [H1 H2].
    split; [exact H1|]. intros ys rest H. specialize (H2 ys rest H). cbn [length]. lia. }
  cbn [parse_list_loop].
  destruct (token_kind t) as [| |n|n|s|s|s| |]; try exact (Hgen _ _).
  - destruct (IH ts [] None ltac:(lia)) as [N1 N2].
    destruct (parse_list_loop f ts [] None) as [inner r| | |] eqn:En;
      [|split; [discriminate|intros ? ? H; discriminate H]..|contradiction].
    specialize (N2 inner r eq_refl).
    destruct (IH r (objs ++ [List inner None])%list (Some t) ltac:(lia)) as [H1 H2].
    split; [exact H1|]. intros ys rest H. specialize (H2 ys rest H). cbn [length]. lia.
  - split; [discriminate|]. intros ys rest H. injection H as _ <-. cbn [length]. lia.
  - split; [discriminate|intros ? ? H; discriminate H].
Qed.

Lemma parse_loop_enough_fuel :
  forall (f : nat) (ts : list Token) (objs : list Object),
    length ts <= f -> parse_loop f ts objs <> POutOfFuel.
Proof.
  induction f as [|f IH]; intros ts objs Hf.
  { destruct ts as [|t ts]; [discriminate|cbn in Hf; lia]. }
  destruct ts as [|t ts]; [discriminate|].
  cbn [length] in Hf. cbn [parse_loop].
  destruct (token_kind t) as [| |n|n|s|s|s| |]; try (apply IH; lia); try discriminate.
  destruct (parse_list_loop_enough_fuel f ts [] None ltac:(lia)) as [N1 N2].
  destruct (parse_list_loop f ts [] None) as [inner r| | |] eqn:En;
    try discriminate; [|contradiction].
  specialize (N2 inner r eq_refl). apply IH. lia.
Qed.

(** [parse] as modelled always ends in [Ok], [Err] or the panic. *)
Lemma parse_enough_fuel (ts : list Token) : parse ts <> POutOfFuel.
Proof. apply parse_loop_enough_fuel. lia. Qed.
